(** * SpoutGL.h : the [memoryshare] receiver block and the texture copy utilities

    The header [SPOUTSDK/SpoutGL/SpoutGL.h] declares class [spoutGL].  The only
    member functions with a body in the header are the four methods of the
    anonymous struct [memoryshare] (lines 231-284):
    [OpenSenderMemory], [CloseSenderMemory], [LockSenderMemory] and
    [UnlockSenderMemory].  They drive an object of class [SpoutSharedMemory]
    through a pointer [senderMem].

    The embedding is state passing over a small machine: the three fields of
    the struct, a heap of [SpoutSharedMemory] objects addressed by location,
    the state of the surrounding operating system, and the list of calls made
    so far.  Class [SpoutSharedMemory] itself is declared elsewhere, so its
    methods are the operations of an interface. *)

From stdpp Require Import gmap strings list fin_maps.

(** ** Pointers *)

(** A location of the C++ heap.  A nullable pointer is an [option]:
    [None] is [nullptr]. *)
Abbreviation loc := positive.

(** Address of a mapped buffer, the non-null values of [char *]. *)
Abbreviation addr := N.

(** ** The interface of class SpoutSharedMemory

    [Obj] is the private state of one object, [World] what the operating
    system holds (named file mappings, mutexes, other processes).  Each
    method takes the object and the world and returns its result with both
    updated.  [Lock] returns [char *]: [None] is the null pointer. *)
Class SpoutSharedMemory (Obj World : Type) := {
  (** [new SpoutSharedMemory()] : the state the default constructor leaves. *)
  SM_ctor : Obj;
  (** [bool Open(const char *name)] *)
  SM_Open : string → Obj → World → bool * (Obj * World);
  (** [void Close()] *)
  SM_Close : Obj → World → unit * (Obj * World);
  (** [char *Lock()] *)
  SM_Lock : Obj → World → option addr * (Obj * World);
  (** [void Unlock()] *)
  SM_Unlock : Obj → World → unit * (Obj * World);
  (** Observation used in statements only: the object holds an open map. *)
  SM_is_open : Obj → bool
}.

(** ** Calls observed at the interface *)
Inductive event :=
  | EvNew (l : loc)
  | EvOpen (l : loc) (name : string)
  | EvClose (l : loc)
  | EvLock (l : loc)
  | EvUnlock (l : loc)
  | EvLogWarning (msg : string).

#[global] Instance event_eq_dec : EqDecision event.
Proof. solve_decision. Defined.

Definition is_unlock (e : event) : bool :=
  match e with EvUnlock _ => true | _ => false end.

Definition is_new (e : event) : bool :=
  match e with EvNew _ => true | _ => false end.

(** The names passed to [Open] in a list of calls, in order. *)
Definition opened_names (t : list event) : list string :=
  omap (λ e, match e with EvOpen _ n => Some n | _ => None end) t.

(** ** The struct and the machine *)

(** The fields of [memoryshare] (lines 233-235).  [unsigned int] fields are
    [N]; the header only ever stores 0 in them. *)
Record memoryshare := MemoryShare {
  senderMem : option loc;
  m_Width : N;
  m_Height : N
}.

Section Machine.
Context {Obj World : Type} `{!SpoutSharedMemory Obj World}.

Record machine := Machine {
  ms : memoryshare;
  heap : gmap loc Obj;
  world : World;
  trace : list event
}.

(** A computation either runs to a result and a new machine, or has no
    defined behaviour ([None]): a method called through a pointer that
    refers to no live object. *)
Definition M (A : Type) : Type := machine → option (A * machine).

#[global] Instance M_mret : MRet M := λ A a m, Some (a, m).

#[global] Instance M_bind : MBind M := λ A B k c m,
  match c m with
  | Some (a, m') => k a m'
  | None => None
  end.

Definition get_senderMem : M (option loc) := λ m, Some (senderMem (ms m), m).

Definition set_senderMem (p : option loc) : M unit :=
  λ m, Some (tt, Machine (MemoryShare p (m_Width (ms m)) (m_Height (ms m)))
                         (heap m) (world m) (trace m)).

Definition set_m_Width (w : N) : M unit :=
  λ m, Some (tt, Machine (MemoryShare (senderMem (ms m)) w (m_Height (ms m)))
                         (heap m) (world m) (trace m)).

Definition set_m_Height (h : N) : M unit :=
  λ m, Some (tt, Machine (MemoryShare (senderMem (ms m)) (m_Width (ms m)) h)
                         (heap m) (world m) (trace m)).

Definition emit (e : event) : M unit :=
  λ m, Some (tt, Machine (ms m) (heap m) (world m) (trace m ++ [e])).

(** [new SpoutSharedMemory()] : a location not in use, holding a freshly
    constructed object.  Allocation failure is not modelled. *)
Definition new_SpoutSharedMemory : M loc :=
  λ m, let l := fresh (dom (heap m)) in
       Some (l, Machine (ms m) (<[l := SM_ctor]> (heap m)) (world m)
                        (trace m ++ [EvNew l])).

(** [p->method(...)] : undefined when [p] refers to no live object. *)
Definition call {A} (l : loc) (ev : event)
    (method : Obj → World → A * (Obj * World)) : M A :=
  λ m, match heap m !! l with
       | None => None
       | Some o =>
           let '(a, (o', w')) := method o (world m) in
           Some (a, Machine (ms m) (<[l := o']> (heap m)) w'
                            (trace m ++ [ev]))
       end.

(** [SpoutLogWarning(msg)] *)
Definition SpoutLogWarning (msg : string) : M unit := emit (EvLogWarning msg).

(** *** The four methods, lines 238-282 *)

Definition OpenSenderMemory (sendername : string) : M bool :=
  let namestring := sendername +:+ "_map" in
  p ← get_senderMem ;
  l ← match p with
      | None => l ← new_SpoutSharedMemory ; set_senderMem (Some l) ;; mret l
      | Some l => mret l
      end ;
  ok ← call l (EvOpen l namestring) (SM_Open namestring) ;
  if negb ok then
    SpoutLogWarning
      "spoutGL.memoryshare::OpenSenderMemory - open shared memory failed" ;;
    mret false
  else mret true.

Definition CloseSenderMemory : M unit :=
  p ← get_senderMem ;
  match p with
  | Some l => call l (EvClose l) SM_Close
  | None => mret tt
  end ;;
  set_senderMem None ;;
  set_m_Width 0 ;;
  set_m_Height 0.

Definition LockSenderMemory : M (option addr) :=
  p ← get_senderMem ;
  match p with
  | None => mret None
  | Some l =>
      pBuf ← call l (EvLock l) SM_Lock ;
      match pBuf with
      | None => mret None
      | Some a => mret (Some a)
      end
  end.

Definition UnlockSenderMemory : M unit :=
  p ← get_senderMem ;
  match p with
  | None => mret tt
  | Some l => call l (EvUnlock l) SM_Unlock
  end.

End Machine.

Arguments machine : clear implicits.
Arguments M : clear implicits.

(** A pointer held in [senderMem] refers to a live object.  The header
    obtains the pointer from [new] only, and the four methods keep this
    property (lemma [methods_keep_wf]). *)
Definition wf {Obj World} (m : machine Obj World) : Prop :=
  ∀ l, senderMem (ms m) = Some l → is_Some (heap m !! l).

(** The machine with the two size fields overwritten. *)
Definition with_size {Obj World} (w h : N) (m : machine Obj World)
    : machine Obj World :=
  Machine (MemoryShare (senderMem (ms m)) w h) (heap m) (world m) (trace m).

(** [c] run [n] times in a row. *)
Fixpoint times {Obj World} (n : nat) (c : M Obj World unit) : M Obj World unit :=
  match n with
  | O => mret tt
  | S n' => c ;; times n' c
  end.

(** The calls a computation adds to the trace. *)
Definition new_events {Obj World} (m m' : machine Obj World) : list event :=
  drop (length (trace m)) (trace m').

(** The object [OpenSenderMemory] calls [Open] on: the one held, or a
    freshly constructed one. *)
Definition object_to_open `{!SpoutSharedMemory Obj World}
    (m : machine Obj World) : Obj :=
  default SM_ctor (senderMem (ms m) ≫= λ l, heap m !! l).

(** The calls of lines 249-252 on the object at [l]: the [Open], and the
    warning when it fails. *)
Definition open_calls (l : loc) (namestring : string) (ok : bool) : list event :=
  EvOpen l namestring ::
  if ok then []
  else [EvLogWarning
          "spoutGL.memoryshare::OpenSenderMemory - open shared memory failed"].

(** What a caller could learn from one [LockSenderMemory]. *)
Inductive lock_outcome := LockSuccess | LockTimeout | LockOtherError.

(** ** A stand-in for class SpoutSharedMemory *)
Module Double.

(** One object: the name of the map it has open, if any, and whether it
    holds the map's mutex. *)
Record obj := Obj { o_map : option string; o_locked : bool }.

(** The operating system: the names of the maps that senders have
    created, and the maps whose mutex another process holds. *)
Record os := Os { os_maps : list string; os_busy : list string }.

Definition buffer_of (name : string) : addr := N.of_nat (String.length name) + 4096.

(** Modelled from the spec: [SpoutSharedMemory::Open], not in the header.
    Section 4.5, [openNamed(name) -> MemoryHandle | Error{NotFound}]: an
    object that is not open opens the map of that name if a sender created
    one, and fails otherwise. *)
Definition Open (name : string) (o : obj) (w : os) : bool * (obj * os) :=
  match o_map o with
  | Some _ => (true, (o, w))
  | None =>
      if bool_decide (name ∈ os_maps w)
      then (true, (Obj (Some name) false, w))
      else (false, (o, w))
  end.

(** Modelled from the spec: [SpoutSharedMemory::Close], not in the header.
    Section 4.5, [close(MemoryHandle)]: the object lets go of map and
    mutex. *)
Definition Close (o : obj) (w : os) : unit * (obj * os) :=
  (tt, (Obj None false, w)).

(** Modelled from the spec: [SpoutSharedMemory::Lock], not in the header.
    Section 4.5, the lock yields a view of the buffer of a block guarded
    by a mutex: no buffer without an open map, and none while another
    process holds the mutex. *)
Definition Lock (o : obj) (w : os) : option addr * (obj * os) :=
  match o_map o with
  | None => (None, (o, w))
  | Some n =>
      if bool_decide (n ∈ os_busy w)
      then (None, (o, w))
      else (Some (buffer_of n), (Obj (Some n) true, w))
  end.

(** Modelled from the spec: [SpoutSharedMemory::Unlock], not in the header;
    the release that pairs with the lock of section 4.5. *)
Definition Unlock (o : obj) (w : os) : unit * (obj * os) :=
  (tt, (Obj (o_map o) false, w)).

(** Modelled from the spec: class [SpoutSharedMemory] is not in the
    header; the four methods above stand in for it where a statement is
    run on a concrete receiver. *)
#[global] Instance double : SpoutSharedMemory obj os := {|
  SM_ctor := Obj None false;
  SM_Open := Open;
  SM_Close := Close;
  SM_Lock := Lock;
  SM_Unlock := Unlock;
  SM_is_open := λ o, bool_decide (is_Some (o_map o))
|}.

(** A receiver that has never opened anything. *)
Definition never_opened (w : os) : machine obj os :=
  Machine (MemoryShare None 0 0) ∅ w [].

(** A receiver whose [senderMem] is the object at location 1. *)
Definition holding (o : obj) (wd ht : N) (w : os) : machine obj os :=
  Machine (MemoryShare (Some 1%positive) wd ht) {[ 1%positive := o ]} w [].

Definition os_cam0 : os := Os ["cam0_map"] [].
Definition os_cam0_busy : os := Os ["cam0_map"] ["cam0_map"].

End Double.

(** ** Pixel copies (lines 137-143)

    [CopyTexture] and [RemovePadding] are declared in the header and defined
    in [SpoutGL.cpp].  Their models below follow the documentation of the
    declarations and sections 4.4 and 8 of the specification. *)

Abbreviation GLuint := N.
Abbreviation GLenum := N.

(** [len] elements of a buffer starting at offset [off]: the region a
    [memcpy(_, buf + off, len)] reads. *)
Definition span {A} (off len : nat) (buf : list A) : list A :=
  take len (drop off buf).

(** Row [y] of a packed image whose rows hold [rowlen] elements. *)
Definition row {A} (rowlen y : nat) (buf : list A) : list A :=
  span (y * rowlen) rowlen buf.

(** The source row that lands in destination row [y]. *)
Definition source_row (invert : bool) (height y : nat) : nat :=
  if invert then height - 1 - y else y.

(** Modelled from the spec: the row loop of every copy path (the bodies of
    [CopyTexture] and of the send and receive functions are not in the
    header).  Section 4.4, step 3: the copy moves the rows, and [invert]
    flips them during the copy, not in a second pass. *)
Definition copy_rows {A} (invert : bool) (rowlen height : nat)
    (src : list A) : list A :=
  concat ((λ y, row rowlen (source_row invert height y) src) <$> seq 0 height).

(** An OpenGL texture: its size and its texels, rows packed one after the
    other. *)
Record Texture := mkTexture {
  tex_width : N;
  tex_height : N;
  tex_pixels : list N
}.

Definition tex_ok (t : Texture) : Prop :=
  length (tex_pixels t) = (N.to_nat (tex_height t) * N.to_nat (tex_width t))%nat.

Definition has_size (width height : N) (t : Texture) : bool :=
  bool_decide (tex_width t = width) && bool_decide (tex_height t = height).

(** Modelled from the spec: [spoutGL::CopyTexture], declared at lines
    139-140 with the comment "Textures must be the same size"; its body is
    not in the header.  Section 4.4: source and destination must have the
    width and height of the call, a mismatch is an error and nothing is
    scaled; the copy flips the rows when [bInvert] is set. *)
Definition CopyTexture (gl : gmap GLuint Texture)
    (SourceID SourceTarget DestID DestTarget : GLuint)
    (width height : N) (bInvert : bool) (HostFBO : GLuint)
    : bool * gmap GLuint Texture :=
  match gl !! SourceID, gl !! DestID with
  | Some s, Some d =>
      if has_size width height s && has_size width height d
      then (true,
            <[DestID := mkTexture width height
                          (copy_rows bInvert (N.to_nat width) (N.to_nat height)
                                     (tex_pixels s))]> gl)
      else (false, gl)
  | _, _ => (false, gl)
  end.

(** Modelled from the spec: [send] and [receive] of section 4.4 on the
    direct tier, a copy between the caller's texture and the texture
    [shared] linked to the shared resource (the bodies of
    [WriteGLDXtexture] and [ReadGLDXtexture], lines 300-301, are not in the
    header). *)
Definition send (gl : gmap GLuint Texture) (shared localTexture : GLuint)
    (width height : N) (invert : bool) : bool * gmap GLuint Texture :=
  CopyTexture gl localTexture 0 shared 0 width height invert 0.

(** Modelled from the spec: [receive] of section 4.4, the copy in the
    other direction. *)
Definition receive (gl : gmap GLuint Texture) (shared localTexture : GLuint)
    (width height : N) (invert : bool) : bool * gmap GLuint Texture :=
  CopyTexture gl shared 0 localTexture 0 width height invert 0.

Section Stride.
(** Bytes per pixel of a pixel format ([GL_RGBA], [GL_RGB], ...): the
    table lives in the OpenGL headers. *)
Variable bytesPerPixel : GLenum → nat.

(** Modelled from the spec: [spoutGL::RemovePadding], declared at lines
    142-143 under "Correct for image stride"; its body is not in the
    header.  Each of the [height] rows starts [stride] bytes after the
    previous one in [source] and contributes its first
    [width * bytesPerPixel] bytes.  The result is what is written to
    [dest]. *)
Definition RemovePadding (source : list Byte.byte)
    (width height stride : nat) (glFormat : GLenum) : list Byte.byte :=
  concat ((λ y, span (y * stride) (width * bytesPerPixel glFormat) source)
            <$> seq 0 height).

(** Modelled from the spec: the copy out of a mapped resource of row
    pitch [pitch] (section 4.4, step 3): padding removal whenever the
    pitch exceeds [width * bytesPerPixel], a plain copy of the
    [height * width * bytesPerPixel] bytes otherwise. *)
Definition copy_from_pitch (source : list Byte.byte)
    (width height pitch : nat) (glFormat : GLenum) : list Byte.byte :=
  if decide (width * bytesPerPixel glFormat < pitch)
  then RemovePadding source width height pitch glFormat
  else take (height * (width * bytesPerPixel glFormat)) source.
End Stride.

(** The usual table: four bytes for [GL_RGBA] (0x1908) and [GL_BGRA_EXT]
    (0x80E1), three for [GL_RGB] (0x1907) and [GL_BGR_EXT] (0x80E0). *)
Definition gl_bytes_per_pixel (glFormat : GLenum) : nat :=
  if bool_decide (glFormat = 0x1907%N) || bool_decide (glFormat = 0x80E0%N)
  then 3 else 4.

(** ** Callers of the memoryshare methods

    A receiver may call the four public methods in any order.  One call,
    with its result dropped, and a list of calls run one after the other. *)
Inductive method :=
  | CallOpen (sendername : string)
  | CallClose
  | CallLock
  | CallUnlock.

Definition run_method `{!SpoutSharedMemory Obj World} (c : method)
    : M Obj World unit :=
  match c with
  | CallOpen sendername => OpenSenderMemory sendername ;; mret tt
  | CallClose => CloseSenderMemory
  | CallLock => LockSenderMemory ;; mret tt
  | CallUnlock => UnlockSenderMemory
  end.

Fixpoint run_methods `{!SpoutSharedMemory Obj World} (cs : list method)
    : M Obj World unit :=
  match cs with
  | [] => mret tt
  | c :: cs' => run_method c ;; run_methods cs'
  end.

(** [n] rounds of opening a sender and closing it again. *)
Definition open_close_cycles (n : nat) (sendername : string) : list method :=
  concat (replicate n [CallOpen sendername; CallClose]).

Definition is_log (e : event) : bool :=
  match e with EvLogWarning _ => true | _ => false end.

Definition is_open_call (e : event) : bool :=
  match e with EvOpen _ _ => true | _ => false end.

(** ** Small frames for the examples *)

(** Three 2x2 textures; texture 1 holds the rows [10 11] and [20 21]. *)
Definition gl_three : gmap GLuint Texture :=
  {[ 1%N := mkTexture 2 2 [10; 11; 20; 21]%N;
     2%N := mkTexture 2 2 [0; 0; 0; 0]%N;
     3%N := mkTexture 2 2 [0; 0; 0; 0]%N ]}.

(** Two rows of one RGBA pixel each, at a pitch of 6 bytes: bytes
    ["x05"] and ["x06"], then ["x0b"] and ["x0c"], are padding. *)
Definition padded_rows : list Byte.byte :=
  [Byte.x01; Byte.x02; Byte.x03; Byte.x04; Byte.x05; Byte.x06;
   Byte.x07; Byte.x08; Byte.x09; Byte.x0a; Byte.x0b; Byte.x0c].

(** * Properties of the memoryshare methods *)

Ltac unfold_M :=
  unfold OpenSenderMemory, CloseSenderMemory, LockSenderMemory,
    UnlockSenderMemory, SpoutLogWarning, emit, call, new_SpoutSharedMemory,
    get_senderMem, set_senderMem, set_m_Width, set_m_Height,
    mbind, M_bind, mret, M_mret; simpl.

Section MachineProofs.
Context {Obj World : Type} `{!SpoutSharedMemory Obj World}.
Implicit Types m : machine Obj World.

Lemma new_events_app m m' evs :
  trace m' = trace m ++ evs → new_events m m' = evs.
Proof. unfold new_events. intros ->. by rewrite drop_app_length. Qed.

Lemma wf_null m : senderMem (ms m) = None → wf m.
Proof. intros Hn l Hl. congruence. Qed.

(** What one [CloseSenderMemory] does, by the two cases of line 259. *)
Lemma CloseSenderMemory_null m :
  senderMem (ms m) = None →
  CloseSenderMemory m
  = Some (tt, Machine (MemoryShare None 0 0) (heap m) (world m) (trace m)).
Proof. intros Hn. unfold_M. by rewrite Hn. Qed.

Lemma CloseSenderMemory_held m l o :
  senderMem (ms m) = Some l → heap m !! l = Some o →
  CloseSenderMemory m
  = Some (tt, Machine (MemoryShare None 0 0)
                      (<[l := (SM_Close o (world m)).2.1]> (heap m))
                      (SM_Close o (world m)).2.2
                      (trace m ++ [EvClose l])).
Proof.
  intros Hs Hh. unfold_M. rewrite Hs. simpl. rewrite Hh.
  by destruct (SM_Close o (world m)) as [[] [o' w']].
Qed.

Lemma CloseSenderMemory_closed m :
  ms m = MemoryShare None 0 0 → CloseSenderMemory m = Some (tt, m).
Proof.
  intros Hm. rewrite CloseSenderMemory_null; [|by rewrite Hm].
  destruct m as [s h w t]. simpl in *. by subst.
Qed.

Lemma times_CloseSenderMemory_closed m n :
  ms m = MemoryShare None 0 0 → times n CloseSenderMemory m = Some (tt, m).
Proof.
  intros Hm. induction n as [|n IH]; [done|].
  simpl. unfold mbind, M_bind at 1. by rewrite CloseSenderMemory_closed.
Qed.

(** C4.  [CloseSenderMemory] is idempotent.  On every machine whose
    [senderMem] is null or refers to a live object, one call is defined
    and ends with [senderMem = nullptr], [m_Width = 0] and [m_Height = 0];
    calling it again on that machine changes nothing at all, so any number
    of calls in a row ends in the machine a single call produces.  On a
    never-opened block the call touches neither the heap, the operating
    system nor the interface of [SpoutSharedMemory]. *)
Theorem CloseSenderMemory_idempotent m :
  wf m →
  ∃ m1, CloseSenderMemory m = Some (tt, m1)
      ∧ ms m1 = MemoryShare None 0 0
      ∧ CloseSenderMemory m1 = Some (tt, m1)
      ∧ (∀ n, times (S n) CloseSenderMemory m = Some (tt, m1))
      ∧ (senderMem (ms m) = None →
         heap m1 = heap m ∧ world m1 = world m ∧ trace m1 = trace m).
Proof.
  intros Hwf.
  assert (∃ m1, CloseSenderMemory m = Some (tt, m1)
              ∧ ms m1 = MemoryShare None 0 0
              ∧ (senderMem (ms m) = None →
                 heap m1 = heap m ∧ world m1 = world m ∧ trace m1 = trace m))
    as (m1 & Hrun & Hms & Hframe).
  { destruct (senderMem (ms m)) as [l|] eqn:Hs.
    - destruct (Hwf l Hs) as [o Ho].
      eexists. split; [by apply CloseSenderMemory_held|]. by split.
    - eexists. split; [by apply CloseSenderMemory_null|]. by split. }
  exists m1. split_and!; try done.
  - by apply CloseSenderMemory_closed.
  - intros n. simpl. unfold mbind, M_bind at 1. rewrite Hrun.
    by apply times_CloseSenderMemory_closed.
Qed.

(** What one [OpenSenderMemory] does, by the two cases of line 244. *)
Lemma OpenSenderMemory_held m sendername l o :
  senderMem (ms m) = Some l → heap m !! l = Some o →
  let r := SM_Open (sendername +:+ "_map") o (world m) in
  OpenSenderMemory sendername m
  = Some (r.1, Machine (ms m) (<[l := r.2.1]> (heap m)) r.2.2
                 (trace m ++ open_calls l (sendername +:+ "_map") r.1)).
Proof.
  intros Hs Hh. unfold_M. rewrite Hs. simpl. rewrite Hh.
  destruct (SM_Open _ o (world m)) as [[] [o' w']]; simpl;
    unfold open_calls; by rewrite <- ?app_assoc.
Qed.

Lemma OpenSenderMemory_null m sendername :
  senderMem (ms m) = None →
  let l := fresh (dom (heap m)) in
  let r := SM_Open (sendername +:+ "_map") SM_ctor (world m) in
  OpenSenderMemory sendername m
  = Some (r.1, Machine (MemoryShare (Some l) (m_Width (ms m)) (m_Height (ms m)))
                 (<[l := r.2.1]> (<[l := SM_ctor]> (heap m))) r.2.2
                 (trace m ++ EvNew l :: open_calls l (sendername +:+ "_map") r.1)).
Proof.
  intros Hs. unfold_M. rewrite Hs. simpl. rewrite lookup_insert_eq.
  destruct (SM_Open _ SM_ctor (world m)) as [[] [o' w']]; simpl;
    unfold open_calls; by rewrite <- !app_assoc.
Qed.

(** Both cases at once. *)
Lemma OpenSenderMemory_run m sendername :
  wf m →
  let r := SM_Open (sendername +:+ "_map") (object_to_open m) (world m) in
  ∃ l m', OpenSenderMemory sendername m = Some (r.1, m')
        ∧ senderMem (ms m') = Some l
        ∧ heap m' !! l = Some r.2.1
        ∧ world m' = r.2.2
        ∧ m_Width (ms m') = m_Width (ms m)
        ∧ m_Height (ms m') = m_Height (ms m)
        ∧ ((senderMem (ms m) = Some l
            ∧ new_events m m' = open_calls l (sendername +:+ "_map") r.1
            ∧ dom (heap m') = dom (heap m))
           ∨ (senderMem (ms m) = None
              ∧ (l ∉ dom (heap m))
              ∧ new_events m m'
                = EvNew l :: open_calls l (sendername +:+ "_map") r.1
              ∧ dom (heap m') = {[l]} ∪ dom (heap m))).
Proof.
  intros Hwf. unfold object_to_open.
  destruct (senderMem (ms m)) as [l|] eqn:Hs; simpl.
  - destruct (Hwf l Hs) as [o Ho]. rewrite Ho. simpl.
    eexists l, _. split; [by apply OpenSenderMemory_held|]. simpl.
    rewrite lookup_insert_eq. split_and!; try done.
    left. split_and!; [done| |].
    + by apply new_events_app.
    + by apply dom_insert_lookup_L.
  - eexists (fresh (dom (heap m))), _.
    split; [by apply OpenSenderMemory_null|]. simpl.
    rewrite lookup_insert_eq. split_and!; try done.
    right. split_and!; [done| | |].
    + apply is_fresh.
    + by apply new_events_app.
    + by rewrite !dom_insert_L, (assoc_L (∪)), (idemp_L (∪)).
Qed.

Lemma opened_names_open_calls l namestring ok :
  opened_names (open_calls l namestring ok) = [namestring].
Proof. by destruct ok. Qed.

Lemma length_append (s t : string) :
  String.length (s +:+ t) = String.length s + String.length t.
Proof. induction s as [|c s IH]; simpl; [done|]. by rewrite IH. Qed.


Lemma OpenSenderMemory_wf m sendername ok m' :
  wf m → OpenSenderMemory sendername m = Some (ok, m') → wf m'.
Proof.
  intros Hwf Hrun.
  destruct (OpenSenderMemory_run m sendername Hwf)
    as (l & m1 & Hrun1 & Hs & Hh & _).
  rewrite Hrun in Hrun1. simplify_eq.
  intros l' Hl'. rewrite Hs in Hl'. simplify_eq. by rewrite Hh.
Qed.

Lemma call_wf {A} m l ev (method : Obj → World → A * (Obj * World)) a m' :
  wf m → call l ev method m = Some (a, m') → wf m'.
Proof.
  intros Hwf. unfold call. destruct (heap m !! l) as [o|] eqn:Ho; [|done].
  destruct (method o (world m)) as [a' [o' w']]. intros [= <- <-].
  intros l' Hl'. simpl in *.
  destruct (decide (l = l')) as [->|Hne].
  - rewrite lookup_insert_eq. by eexists.
  - rewrite lookup_insert_ne by done. by apply Hwf.
Qed.

(** The four methods take a machine whose [senderMem] is null or live to
    one of the same kind. *)
Lemma methods_keep_wf m :
  wf m →
  (∀ sendername r m', OpenSenderMemory sendername m = Some (r, m') → wf m')
  ∧ (∀ r m', CloseSenderMemory m = Some (r, m') → wf m')
  ∧ (∀ r m', LockSenderMemory m = Some (r, m') → wf m')
  ∧ (∀ r m', UnlockSenderMemory m = Some (r, m') → wf m').
Proof.
  intros Hwf. split_and!.
  - intros sendername r m'. by apply OpenSenderMemory_wf.
  - intros [] m'. destruct (senderMem (ms m)) as [l|] eqn:Hs.
    + destruct (Hwf l Hs) as [o Ho].
      rewrite (CloseSenderMemory_held m l o Hs Ho). intros [= <-].
      by apply wf_null.
    + rewrite (CloseSenderMemory_null m Hs). intros [= <-]. by apply wf_null.
  - intros r m'. unfold LockSenderMemory, mbind, M_bind, get_senderMem.
    destruct (senderMem (ms m)) as [l|] eqn:Hs.
    + destruct (call l (EvLock l) SM_Lock m) as [[pBuf m1]|] eqn:Hc; [|done].
      apply call_wf in Hc; [|done].
      destruct pBuf; intros [= _ <-]; done.
    + by intros [= _ <-].
  - intros r m'. unfold UnlockSenderMemory, mbind, M_bind, get_senderMem.
    destruct (senderMem (ms m)) as [l|] eqn:Hs.
    + by apply call_wf.
    + by intros [= _ <-].
Qed.


(** C10.  [OpenSenderMemory] constructs a [SpoutSharedMemory] object only
    when [senderMem] is null.  Called with [senderMem] non-null it leaves
    the field as it is, makes no allocation and calls [Open] on the
    object already held; called with [senderMem] null it stores one new
    location there.  [m_Width] and [m_Height] are the same before and
    after on both paths. *)
Theorem OpenSenderMemory_allocates_once m sendername :
  wf m →
  ∃ ok m', OpenSenderMemory sendername m = Some (ok, m')
         ∧ m_Width (ms m') = m_Width (ms m)
         ∧ m_Height (ms m') = m_Height (ms m)
         ∧ match senderMem (ms m) with
           | Some l =>
               senderMem (ms m') = Some l
               ∧ dom (heap m') = dom (heap m)
               ∧ filter (λ e, is_new e = true) (new_events m m') = []
               ∧ EvOpen l (sendername +:+ "_map") ∈ new_events m m'
           | None =>
               ∃ l, senderMem (ms m') = Some l
                  ∧ (l ∉ dom (heap m))
                  ∧ dom (heap m') = {[l]} ∪ dom (heap m)
                  ∧ filter (λ e, is_new e = true) (new_events m m') = [EvNew l]
           end.
Proof.
  intros Hwf.
  destruct (OpenSenderMemory_run m sendername Hwf)
    as (l & m' & Hrun & Hs & _ & _ & Hw & Hh & Hcases).
  eexists _, m'. split_and!; [exact Hrun|exact Hw|exact Hh|].
  destruct Hcases as [(-> & -> & Hdom)|(-> & Hfresh & -> & Hdom)].
  - split_and!; [done|done| |].
    + unfold open_calls. by destruct (SM_Open _ _ _).1.
    + unfold open_calls. apply list_elem_of_here.
  - exists l. split_and!; [done|done|done|].
    unfold open_calls. by destruct (SM_Open _ _ _).1.
Qed.

(** What [LockSenderMemory] and [UnlockSenderMemory] do, by the cases of
    lines 268 and 280. *)
Lemma LockSenderMemory_null m :
  senderMem (ms m) = None → LockSenderMemory m = Some (None, m).
Proof. intros Hs. unfold_M. by rewrite Hs. Qed.

Lemma LockSenderMemory_held m l o :
  senderMem (ms m) = Some l → heap m !! l = Some o →
  let r := SM_Lock o (world m) in
  LockSenderMemory m
  = Some (r.1, Machine (ms m) (<[l := r.2.1]> (heap m)) r.2.2
                 (trace m ++ [EvLock l])).
Proof.
  intros Hs Hh. unfold_M. rewrite Hs. simpl. rewrite Hh.
  by destruct (SM_Lock o (world m)) as [[a|] [o' w']].
Qed.

Lemma LockSenderMemory_dangling m l :
  senderMem (ms m) = Some l → heap m !! l = None → LockSenderMemory m = None.
Proof. intros Hs Hh. unfold_M. rewrite Hs. simpl. by rewrite Hh. Qed.

Lemma UnlockSenderMemory_null m :
  senderMem (ms m) = None → UnlockSenderMemory m = Some (tt, m).
Proof. intros Hs. unfold_M. by rewrite Hs. Qed.

Lemma UnlockSenderMemory_held m l o :
  senderMem (ms m) = Some l → heap m !! l = Some o →
  let r := SM_Unlock o (world m) in
  UnlockSenderMemory m
  = Some (tt, Machine (ms m) (<[l := r.2.1]> (heap m)) r.2.2
                (trace m ++ [EvUnlock l])).
Proof.
  intros Hs Hh. unfold_M. rewrite Hs. simpl. rewrite Hh.
  by destruct (SM_Unlock o (world m)) as [[] [o' w']].
Qed.

(** C6, as the header has it.  [LockSenderMemory] has no timeout
    argument and its result is a pointer, the one [Lock] returned on the
    object held, or null when nothing is held: it is null exactly when
    [senderMem] is null or the [Lock] of the object returned null.  The
    two causes of a null result are not told apart. *)
Theorem LockSenderMemory_null_iff m :
  wf m →
  ∃ r m', LockSenderMemory m = Some (r, m')
        ∧ r = (senderMem (ms m) ≫= λ l, heap m !! l)
                ≫= (λ o, (SM_Lock o (world m)).1)
        ∧ (r = None
           ↔ senderMem (ms m) = None
             ∨ ∃ l o, senderMem (ms m) = Some l ∧ heap m !! l = Some o
                      ∧ (SM_Lock o (world m)).1 = None).
Proof.
  intros Hwf. destruct (senderMem (ms m)) as [l|] eqn:Hs.
  - destruct (Hwf l Hs) as [o Ho].
    eexists _, _. split; [by apply LockSenderMemory_held|]. simpl.
    rewrite Ho. simpl. split; [done|]. split.
    + intros Hr. right. by exists l, o.
    + intros [?|(l' & o' & ? & Ho' & Hr)]; [done|]. by simplify_eq.
  - eexists _, _. split; [by apply LockSenderMemory_null|].
    split; [done|]. split; auto.
Qed.

(** C7.  [LockSenderMemory] makes no size check: what it returns and
    what it does are the same whatever [m_Width] and [m_Height] hold, it
    leaves both fields as they are, and a buffer it returns is the one
    [Lock] returned, passed on as it is. *)
Theorem LockSenderMemory_no_size_checks m w h :
  LockSenderMemory (with_size w h m)
  = (λ rm, (rm.1, with_size w h rm.2)) <$> LockSenderMemory m
  ∧ match LockSenderMemory m with
    | Some (r, m') =>
        m_Width (ms m') = m_Width (ms m)
        ∧ m_Height (ms m') = m_Height (ms m)
        ∧ match r with
          | Some a =>
              ∃ l o, senderMem (ms m) = Some l ∧ heap m !! l = Some o
                     ∧ (SM_Lock o (world m)).1 = Some a
          | None => True
          end
    | None => True
    end.
Proof.
  destruct (senderMem (ms m)) as [l|] eqn:Hs.
  - destruct (heap m !! l) as [o|] eqn:Ho.
    + rewrite (LockSenderMemory_held m l o Hs Ho).
      rewrite (LockSenderMemory_held (with_size w h m) l o); [|done..].
      simpl. split; [done|]. split_and!; [done..|].
      destruct (SM_Lock o (world m)).1 eqn:Hr; [|done]. by exists l, o.
    + rewrite (LockSenderMemory_dangling m l Hs Ho).
      by rewrite (LockSenderMemory_dangling (with_size w h m) l).
  - rewrite (LockSenderMemory_null m Hs).
    by rewrite (LockSenderMemory_null (with_size w h m)).
Qed.

(** C8, as the header has it.  [LockSenderMemory] and
    [UnlockSenderMemory] are defined on every machine whose [senderMem] is
    null or refers to a live object.  With [senderMem] null,
    [LockSenderMemory] returns [nullptr] and [UnlockSenderMemory] returns,
    both without a call and without any change.  With [senderMem]
    non-null, [LockSenderMemory] makes one [Lock] call and nothing else, so
    no [Unlock] follows a null buffer, and it returns what [Lock] returned:
    a non-null result only comes from a non-null [senderMem] whose [Lock]
    gave that buffer.  With [senderMem] non-null, [UnlockSenderMemory] is
    not a no-op: it makes one [Unlock] call on the object, whatever an
    earlier [Lock] returned, and leaves the fields of the struct alone. *)
Theorem Lock_Unlock_null_safe m :
  wf m →
  ∃ r m', LockSenderMemory m = Some (r, m')
        ∧ is_Some (UnlockSenderMemory m)
        ∧ filter (λ e, is_unlock e = true) (new_events m m') = []
        ∧ match senderMem (ms m) with
          | None =>
              r = None ∧ m' = m ∧ UnlockSenderMemory m = Some (tt, m)
          | Some l =>
              ∃ o, heap m !! l = Some o
                 ∧ r = (SM_Lock o (world m)).1
                 ∧ new_events m m' = [EvLock l]
                 ∧ ∃ mu, UnlockSenderMemory m = Some (tt, mu)
                       ∧ new_events m mu = [EvUnlock l]
                       ∧ ms mu = ms m
                       ∧ heap mu !! l = Some (SM_Unlock o (world m)).2.1
          end.
Proof.
  intros Hwf. destruct (senderMem (ms m)) as [l|] eqn:Hs.
  - destruct (Hwf l Hs) as [o Ho].
    assert (new_events m
              (Machine (ms m) (<[l := (SM_Lock o (world m)).2.1]> (heap m))
                 (SM_Lock o (world m)).2.2 (trace m ++ [EvLock l]))
            = [EvLock l]) as Hev by by apply new_events_app.
    eexists _, _. split; [by apply LockSenderMemory_held|].
    split_and!.
    + by rewrite (UnlockSenderMemory_held m l o).
    + by rewrite Hev.
    + exists o. split_and!; [done|done|done|].
      eexists. split; [by apply UnlockSenderMemory_held|].
      simpl. split_and!; [by apply new_events_app|done|].
      apply lookup_insert_eq.
  - exists None, m. rewrite LockSenderMemory_null, UnlockSenderMemory_null by done.
    split_and!; try done.
    unfold new_events. by rewrite drop_all.
Qed.

End MachineProofs.

(** ** The methods on the stand-in *)

(** A receiver holding the open map of sender cam0, with the mutex held,
    is closed three times. *)
Lemma CloseSenderMemory_idempotent_witness :
  let m0 := Double.holding (Double.Obj (Some "cam0_map") true) 640 480
                           Double.os_cam0 in
  wf m0
  ∧ ∃ m1, CloseSenderMemory m0 = Some (tt, m1)
        ∧ ms m1 = MemoryShare None 0 0
        ∧ times 3 CloseSenderMemory m0 = Some (tt, m1).
Proof.
  intros m0.
  assert (wf m0) as Hwf by (intros l [= <-]; by eexists).
  split; [exact Hwf|].
  destruct (CloseSenderMemory_idempotent m0 Hwf) as (m1 & H1 & Hms & _ & Hn & _).
  exists m1. split_and!; [exact H1|exact Hms|exact (Hn 2)].
Defined.




(** C6, as the specification states it: the lock would report a timeout
    distinctly from every other error.  On the stand-in, a receiver that
    never opened anything and a receiver whose map is locked by another
    process get the same result from [LockSenderMemory], so nothing
    computed from the result separates the two. *)
Lemma LockSenderMemory_timeout_not_distinct :
  ¬ ∃ classify : option (option addr) → lock_outcome,
      classify (fst <$> LockSenderMemory (Double.never_opened Double.os_cam0))
      = LockOtherError
      ∧ classify
          (fst <$> LockSenderMemory
                     (Double.holding (Double.Obj (Some "cam0_map") false) 0 0
                                     Double.os_cam0_busy))
        = LockTimeout.
Proof.
  intros (classify & H1 & H2).
  vm_compute in H1. vm_compute in H2. congruence.
Qed.

Lemma LockSenderMemory_null_iff_witness :
  let m0 := Double.holding (Double.Obj (Some "cam0_map") false) 0 0
                           Double.os_cam0_busy in
  wf m0 ∧ ∃ m', LockSenderMemory m0 = Some (None, m').
Proof.
  intros m0.
  assert (wf m0) as Hwf by (intros l [= <-]; by eexists).
  split; [exact Hwf|].
  destruct (LockSenderMemory_null_iff m0 Hwf) as (r & m' & Hrun & Hiff).
  exists m'. rewrite Hrun. repeat f_equal. apply Hiff. right.
  exists 1%positive, (Double.Obj (Some "cam0_map") false).
  split_and!; reflexivity.
Defined.

(** C8, as the claim states it: [UnlockSenderMemory] would be a no-op
    also where the underlying [Lock] returns a null buffer.  On a receiver
    whose map is locked by another process, [LockSenderMemory] returns
    [nullptr], and [UnlockSenderMemory] on that same machine still calls
    [Unlock] on the object: the machine it leaves is not the machine it
    found. *)
Lemma UnlockSenderMemory_not_noop_after_null_Lock :
  fst <$> LockSenderMemory
            (Double.holding (Double.Obj (Some "cam0_map") false) 0 0
                            Double.os_cam0_busy)
  = Some None
  ∧ UnlockSenderMemory
      (Double.holding (Double.Obj (Some "cam0_map") false) 0 0
                      Double.os_cam0_busy)
    ≠ Some (tt, Double.holding (Double.Obj (Some "cam0_map") false) 0 0
                               Double.os_cam0_busy)
  ∧ (trace ∘ snd) <$> UnlockSenderMemory
                        (Double.holding (Double.Obj (Some "cam0_map") false) 0 0
                                        Double.os_cam0_busy)
    = Some [EvUnlock 1%positive].
Proof.
  split_and!.
  - vm_compute. reflexivity.
  - intros Heq. apply (f_equal (fmap (trace ∘ snd))) in Heq.
    vm_compute in Heq. discriminate.
  - vm_compute. reflexivity.
Qed.

Lemma Lock_Unlock_null_safe_witness :
  let m0 := Double.holding (Double.Obj (Some "cam0_map") false) 0 0
                           Double.os_cam0_busy in
  wf m0
  ∧ ∃ m' mu, LockSenderMemory m0 = Some (None, m')
           ∧ new_events m0 m' = [EvLock 1%positive]
           ∧ UnlockSenderMemory m0 = Some (tt, mu)
           ∧ new_events m0 mu = [EvUnlock 1%positive].
Proof.
  intros m0.
  assert (wf m0) as Hwf by (intros l [= <-]; by eexists).
  split; [exact Hwf|].
  destruct (Lock_Unlock_null_safe m0 Hwf) as (r & m' & Hrun & _ & _ & Hcase).
  simpl in Hcase.
  destruct Hcase as (o & Ho & Hr & Hev & mu & Hun & Hevu & _).
  exists m', mu. split_and!; [|exact Hev|exact Hun|exact Hevu].
  rewrite Hrun, Hr. vm_compute in Ho. by simplify_eq.
Defined.


Lemma OpenSenderMemory_allocates_once_witness :
  let m0 := Double.holding (Double.Obj None false) 640 480 Double.os_cam0 in
  wf m0
  ∧ ∃ ok m', OpenSenderMemory "cam0" m0 = Some (ok, m')
           ∧ senderMem (ms m') = Some 1%positive
           ∧ m_Width (ms m') = 640%N ∧ m_Height (ms m') = 480%N.
Proof.
  intros m0.
  assert (wf m0) as Hwf by (intros l [= <-]; by eexists).
  split; [exact Hwf|].
  destruct (OpenSenderMemory_allocates_once m0 "cam0" Hwf)
    as (ok & m' & Hrun & Hw & Hh & Hcase).
  simpl in Hcase. destruct Hcase as (Hs & _).
  by exists ok, m'.
Defined.

(** * Properties of the pixel copies *)

Section Rows.
Context {A : Type}.
Implicit Types (buf src : list A) (f : nat → list A).

Lemma length_span off len buf :
  off + len ≤ length buf → length (span off len buf) = len.
Proof.
  intros Hle. unfold span. rewrite length_take_le; [done|].
  rewrite length_drop. lia.
Qed.

Lemma lookup_span off len buf x :
  x < len → span off len buf !! x = buf !! (off + x).
Proof.
  intros Hx. unfold span. by rewrite lookup_take_lt, lookup_drop.
Qed.

(** Rows of equal length laid one after the other. *)
Lemma length_concat_rows f n h :
  (∀ y, y < h → length (f y) = n) →
  length (concat (f <$> seq 0 h)) = h * n.
Proof.
  induction h as [|h IH]; intros Hlen; [done|].
  rewrite seq_S, fmap_app, concat_app, length_app, IH by (intros; apply Hlen; lia).
  simpl. rewrite app_nil_r, Hlen by lia. lia.
Qed.

Lemma row_concat_rows f n h y :
  (∀ y, y < h → length (f y) = n) → y < h →
  row n y (concat (f <$> seq 0 h)) = f y.
Proof.
  induction h as [|h IH]; intros Hlen Hy; [lia|].
  assert (length (concat (f <$> seq 0 h)) = h * n) as Hh
    by (apply length_concat_rows; intros; apply Hlen; lia).
  rewrite seq_S, fmap_app, concat_app. simpl. rewrite app_nil_r.
  unfold row, span. destruct (decide (y = h)) as [->|Hne].
  - rewrite drop_app_length' by done. apply take_ge. rewrite Hlen; lia.
  - assert (y * n + n ≤ h * n) by nia.
    rewrite drop_app_le by lia.
    rewrite take_app_le by (rewrite length_drop; lia).
    apply IH; [intros; apply Hlen|]; lia.
Qed.

(** Cutting a buffer into its rows and joining them gives it back. *)
Lemma concat_rows_take n h src :
  concat ((λ y, row n y src) <$> seq 0 h) = take (h * n) src.
Proof.
  induction h as [|h IH]; [done|].
  rewrite seq_S, fmap_app, concat_app, IH. simpl. rewrite app_nil_r.
  unfold row, span. rewrite take_take_drop. f_equal. lia.
Qed.

Lemma source_row_lt invert h y : y < h → source_row invert h y < h.
Proof. unfold source_row. destruct invert; lia. Qed.

Lemma length_row n y src :
  y * n + n ≤ length src → length (row n y src) = n.
Proof. apply length_span. Qed.

Lemma length_copy_rows invert n h src :
  length src = h * n → length (copy_rows invert n h src) = h * n.
Proof.
  intros Hlen. apply length_concat_rows. intros y Hy.
  apply length_row. pose proof (source_row_lt invert h y Hy). nia.
Qed.

Lemma row_copy_rows invert n h src y :
  length src = h * n → y < h →
  row n y (copy_rows invert n h src) = row n (source_row invert h y) src.
Proof.
  intros Hlen Hy. unfold copy_rows.
  rewrite (row_concat_rows (λ y, row n (source_row invert h y) src) n h y); [done| |done].
  intros y' Hy'. apply length_row.
  pose proof (source_row_lt invert h y' Hy'). nia.
Qed.

Lemma lookup_copy_rows invert n h src x y :
  length src = h * n → x < n → y < h →
  copy_rows invert n h src !! (y * n + x)
  = src !! (source_row invert h y * n + x).
Proof.
  intros Hlen Hx Hy.
  rewrite <- (lookup_span (y * n) n (copy_rows invert n h src) x Hx).
  change (span (y * n) n ?b) with (row n y b).
  rewrite row_copy_rows by done. by apply lookup_span.
Qed.

Lemma copy_rows_plain n h src :
  length src = h * n → copy_rows false n h src = src.
Proof.
  intros Hlen. unfold copy_rows, source_row.
  rewrite concat_rows_take. apply take_ge. lia.
Qed.

(** Flipping the rows twice puts every row back. *)
Lemma copy_rows_invert_twice n h src :
  length src = h * n →
  copy_rows true n h (copy_rows true n h src) = src.
Proof.
  intros Hlen.
  rewrite <- (copy_rows_plain n h src Hlen) at 2.
  unfold copy_rows at 1 3. f_equal. apply list_fmap_ext.
  intros i y [-> Hy]%lookup_seq. simpl.
  rewrite row_copy_rows by (done || lia).
  unfold source_row. f_equal. lia.
Qed.
End Rows.

Section Textures.
Implicit Types (gl : gmap GLuint Texture) (s d t : Texture).

Lemma has_size_spec w h t :
  has_size w h t = true ↔ tex_width t = w ∧ tex_height t = h.
Proof.
  unfold has_size. rewrite andb_true_iff, !bool_decide_eq_true. done.
Qed.

Lemma tex_ok_length w h t :
  tex_ok t → has_size w h t = true →
  length (tex_pixels t) = N.to_nat h * N.to_nat w.
Proof. intros Hok [<- <-]%has_size_spec. exact Hok. Qed.

Lemma CopyTexture_ok gl src sT dst dT w h inv fbo s d :
  gl !! src = Some s → gl !! dst = Some d →
  has_size w h s = true → has_size w h d = true →
  CopyTexture gl src sT dst dT w h inv fbo
  = (true, <[dst := mkTexture w h
                      (copy_rows inv (N.to_nat w) (N.to_nat h) (tex_pixels s))]> gl).
Proof.
  intros Hs Hd Hss Hsd. unfold CopyTexture. by rewrite Hs, Hd, Hss, Hsd.
Qed.

Lemma CopyTexture_true gl src sT dst dT w h inv fbo :
  (CopyTexture gl src sT dst dT w h inv fbo).1 = true →
  ∃ s d, gl !! src = Some s ∧ gl !! dst = Some d
       ∧ has_size w h s = true ∧ has_size w h d = true.
Proof.
  unfold CopyTexture.
  destruct (gl !! src) as [s|], (gl !! dst) as [d|]; simpl; try done.
  destruct (has_size w h s) eqn:Hs, (has_size w h d) eqn:Hd; simpl; try done.
  intros _. by exists s, d.
Qed.

Lemma CopyTexture_false gl src sT dst dT w h inv fbo :
  (CopyTexture gl src sT dst dT w h inv fbo).1 = false →
  (CopyTexture gl src sT dst dT w h inv fbo).2 = gl.
Proof.
  unfold CopyTexture.
  destruct (gl !! src) as [s|], (gl !! dst) as [d|]; simpl; try done.
  by destruct (has_size w h s && has_size w h d).
Qed.

(** Two inverting copies in a row, from [a] to [b] and from [b] to [c]. *)
Lemma CopyTexture_invert_twice gl a b c sT dT sT' dT' fbo fbo' w h ta tb tc :
  gl !! a = Some ta → gl !! b = Some tb → gl !! c = Some tc →
  tex_ok ta →
  has_size w h ta = true → has_size w h tb = true → has_size w h tc = true →
  ∃ gl1 gl2,
    CopyTexture gl a sT b dT w h true fbo = (true, gl1)
    ∧ CopyTexture gl1 b sT' c dT' w h true fbo' = (true, gl2)
    ∧ tex_pixels <$> gl2 !! c = Some (tex_pixels ta).
Proof.
  intros Ha Hb Hc Hok Hsa Hsb Hsc.
  pose proof (tex_ok_length w h ta Hok Hsa) as Hlen.
  eexists _, _. split; [by eapply CopyTexture_ok|].
  set (tb' := mkTexture w h _).
  assert (has_size w h tb' = true) as Hsb' by (by apply has_size_spec).
  assert (∃ tc', <[b := tb']> gl !! c = Some tc' ∧ has_size w h tc' = true)
    as (tc' & Hc' & Hsc').
  { destruct (decide (b = c)) as [->|Hne].
    - exists tb'. by rewrite lookup_insert_eq.
    - exists tc. by rewrite lookup_insert_ne. }
  split.
  - eapply CopyTexture_ok; [apply lookup_insert_eq|exact Hc'|done..].
  - rewrite lookup_insert_eq. simpl. f_equal.
    by apply copy_rows_invert_twice.
Qed.

(** C1.  A copy with [invert] followed by a second copy with [invert] of
    the result gives back the rows of the frame in their original order:
    for two [CopyTexture] calls in a row, for a [send] followed by a
    [receive], and for the row loop on its own.  The textures have the
    size of the call and the frame holds [height] rows of [width]
    texels. *)
Theorem double_invert_identity gl a b c sT dT sT' dT' fbo fbo' w h ta tb tc :
  gl !! a = Some ta → gl !! b = Some tb → gl !! c = Some tc →
  tex_ok ta →
  has_size w h ta = true → has_size w h tb = true → has_size w h tc = true →
  (∃ gl1 gl2,
     CopyTexture gl a sT b dT w h true fbo = (true, gl1)
     ∧ CopyTexture gl1 b sT' c dT' w h true fbo' = (true, gl2)
     ∧ tex_pixels <$> gl2 !! c = Some (tex_pixels ta))
  ∧ (∃ gl1 gl2,
       send gl b a w h true = (true, gl1)
       ∧ receive gl1 b c w h true = (true, gl2)
       ∧ tex_pixels <$> gl2 !! c = Some (tex_pixels ta))
  ∧ copy_rows true (N.to_nat w) (N.to_nat h)
      (copy_rows true (N.to_nat w) (N.to_nat h) (tex_pixels ta))
    = tex_pixels ta.
Proof.
  intros Ha Hb Hc Hok Hsa Hsb Hsc. split_and!.
  - by eapply CopyTexture_invert_twice.
  - unfold send, receive. by eapply CopyTexture_invert_twice.
  - apply copy_rows_invert_twice. by apply tex_ok_length.
Qed.

(** C2.  [CopyTexture] succeeds exactly when the source and the
    destination both have the width and the height of the call, so that
    the two textures have identical sizes; otherwise it fails and changes
    no texture.  On success the destination keeps that size, every texel
    [(x, y)] of it is the texel [(x, y)] of the source (of row
    [height - 1 - y] when inverting), so nothing is scaled, and no other
    texture changes. *)
Theorem CopyTexture_same_size gl src sT dst dT w h inv fbo :
  let r := CopyTexture gl src sT dst dT w h inv fbo in
  (r.1 = true
   ↔ ∃ s d, gl !! src = Some s ∧ gl !! dst = Some d
          ∧ tex_width s = w ∧ tex_height s = h
          ∧ tex_width d = w ∧ tex_height d = h
          ∧ tex_width s = tex_width d ∧ tex_height s = tex_height d)
  ∧ (r.1 = false → r.2 = gl)
  ∧ (∀ id, id ≠ dst → r.2 !! id = gl !! id)
  ∧ (r.1 = true →
     ∀ s, gl !! src = Some s → tex_ok s →
     ∃ d', r.2 !! dst = Some d'
         ∧ tex_width d' = w ∧ tex_height d' = h ∧ tex_ok d'
         ∧ ∀ x y, x < N.to_nat w → y < N.to_nat h →
             tex_pixels d' !! (y * N.to_nat w + x)
             = tex_pixels s
                 !! (source_row inv (N.to_nat h) y * N.to_nat w + x)).
Proof.
  intros r. split_and!.
  - split.
    + intros (s & d & Hs & Hd & [Hws Hhs]%has_size_spec
                & [Hwd Hhd]%has_size_spec)%CopyTexture_true.
      exists s, d. split_and!; congruence.
    + intros (s & d & Hs & Hd & Hws & Hhs & Hwd & Hhd & _).
      unfold r. erewrite CopyTexture_ok; [done|exact Hs|exact Hd|..];
        by apply has_size_spec.
  - apply CopyTexture_false.
  - intros id Hne. destruct r.1 eqn:Hr.
    + apply CopyTexture_true in Hr as (s & d & Hs & Hd & Hss & Hsd).
      unfold r. rewrite (CopyTexture_ok _ _ _ _ _ _ _ _ _ s d) by done.
      simpl. by rewrite lookup_insert_ne.
    + unfold r. by rewrite CopyTexture_false.
  - intros Hr s Hs Hok.
    apply CopyTexture_true in Hr as (s' & d & Hs' & Hd & Hss & Hsd).
    rewrite Hs in Hs'. simplify_eq.
    unfold r. rewrite (CopyTexture_ok _ _ _ _ _ _ _ _ _ s' d) by done.
    simpl. rewrite lookup_insert_eq.
    pose proof (tex_ok_length w h s' Hok Hss) as Hlen.
    eexists. split; [done|]. simpl. split_and!; [done|done| |].
    + unfold tex_ok. simpl. by apply length_copy_rows.
    + intros x y Hx Hy. by apply lookup_copy_rows.
Qed.
End Textures.

Section StrideProofs.
Variable bytesPerPixel : GLenum → nat.
Implicit Types source : list Byte.byte.

Lemma length_RemovePadding source width height stride glFormat :
  width * bytesPerPixel glFormat ≤ stride →
  height * stride ≤ length source →
  length (RemovePadding bytesPerPixel source width height stride glFormat)
  = height * (width * bytesPerPixel glFormat).
Proof.
  intros Hrow Hlen. apply length_concat_rows.
  intros y Hy. apply length_span. nia.
Qed.

Lemma row_RemovePadding source width height stride glFormat y :
  width * bytesPerPixel glFormat ≤ stride →
  height * stride ≤ length source → y < height →
  row (width * bytesPerPixel glFormat) y
      (RemovePadding bytesPerPixel source width height stride glFormat)
  = span (y * stride) (width * bytesPerPixel glFormat) source.
Proof.
  intros Hrow Hlen Hy. unfold RemovePadding.
  rewrite (row_concat_rows
             (λ y, span (y * stride) (width * bytesPerPixel glFormat) source)
             (width * bytesPerPixel glFormat) height y); [done| |done].
  intros y' Hy'. apply length_span. nia.
Qed.

Lemma RemovePadding_packed source width height glFormat :
  length source = height * (width * bytesPerPixel glFormat) →
  RemovePadding bytesPerPixel source width height
                (width * bytesPerPixel glFormat) glFormat
  = source.
Proof.
  intros Hlen. unfold RemovePadding.
  change (λ y, span (y * ?n) ?n source) with (λ y, row n y source).
  rewrite concat_rows_take. apply take_ge. lia.
Qed.

(** C3.  When the row pitch of the source exceeds
    [width * bytesPerPixel], the copy is the padding removal of
    [RemovePadding]: the result holds [height] rows packed at exactly
    [width * bytesPerPixel] bytes, and row [y] of it is the first
    [width * bytesPerPixel] bytes found at offset [y * pitch] of the
    source.  When the pitch equals [width * bytesPerPixel] the data is
    copied unchanged, and [RemovePadding] itself would change nothing. *)
Theorem stride_correction source width height pitch glFormat :
  let rowbytes := width * bytesPerPixel glFormat in
  let dest := copy_from_pitch bytesPerPixel source width height pitch glFormat in
  (rowbytes < pitch → height * pitch ≤ length source →
     dest = RemovePadding bytesPerPixel source width height pitch glFormat
     ∧ length dest = height * rowbytes
     ∧ ∀ y, y < height →
         row rowbytes y dest = span (y * pitch) rowbytes source)
  ∧ (pitch = rowbytes → length source = height * pitch →
     dest = source
     ∧ RemovePadding bytesPerPixel source width height pitch glFormat
       = source).
Proof.
  intros rowbytes dest. split.
  - intros Hpad Hlen.
    assert (dest = RemovePadding bytesPerPixel source width height pitch
                                 glFormat) as ->.
    { unfold dest, copy_from_pitch. by rewrite decide_True. }
    split_and!; [done| |].
    + apply length_RemovePadding; [unfold rowbytes in Hpad; lia|done].
    + intros y Hy. apply row_RemovePadding; [unfold rowbytes in Hpad; lia|done..].
  - intros -> Hlen. split.
    + unfold dest, copy_from_pitch.
      rewrite decide_False by (unfold rowbytes; lia).
      apply take_ge. unfold rowbytes in Hlen. lia.
    + by apply RemovePadding_packed.
Qed.
End StrideProofs.

(** ** The copies on small frames *)

Example CopyTexture_invert_2x2 :
  tex_pixels <$> (CopyTexture gl_three 1 0 2 0 2 2 true 0).2 !! 2%N
  = Some [20; 21; 10; 11]%N.
Proof. vm_compute. reflexivity. Qed.

Example CopyTexture_mismatch_2x2 :
  CopyTexture gl_three 1 0 2 0 4 1 false 0 = (false, gl_three).
Proof. vm_compute. reflexivity. Qed.

Example RemovePadding_2x1 :
  RemovePadding gl_bytes_per_pixel padded_rows 1 2 6 0x1908
  = [Byte.x01; Byte.x02; Byte.x03; Byte.x04;
     Byte.x07; Byte.x08; Byte.x09; Byte.x0a].
Proof. vm_compute. reflexivity. Qed.

Lemma double_invert_identity_witness :
  let ta := mkTexture 2 2 [10; 11; 20; 21]%N in
  let tz := mkTexture 2 2 [0; 0; 0; 0]%N in
  gl_three !! 1%N = Some ta ∧ gl_three !! 2%N = Some tz
  ∧ gl_three !! 3%N = Some tz ∧ tex_ok ta
  ∧ has_size 2 2 ta = true ∧ has_size 2 2 tz = true
  ∧ (∃ gl1 gl2,
       CopyTexture gl_three 1 0 2 0 2 2 true 0 = (true, gl1)
       ∧ CopyTexture gl1 2 0 3 0 2 2 true 0 = (true, gl2)
       ∧ tex_pixels <$> gl2 !! 3%N = Some [10; 11; 20; 21]%N).
Proof.
  intros ta tz.
  assert (gl_three !! 1%N = Some ta) as H1 by (vm_compute; reflexivity).
  assert (gl_three !! 2%N = Some tz) as H2 by (vm_compute; reflexivity).
  assert (gl_three !! 3%N = Some tz) as H3 by (vm_compute; reflexivity).
  assert (tex_ok ta) as Hok by (vm_compute; reflexivity).
  assert (has_size 2 2 ta = true) as Hsa by (vm_compute; reflexivity).
  assert (has_size 2 2 tz = true) as Hsz by (vm_compute; reflexivity).
  split_and!; try assumption.
  exact (proj1 (double_invert_identity gl_three 1 2 3 0 0 0 0 0 0 2 2 ta tz tz
                  H1 H2 H3 Hok Hsa Hsz Hsz)).
Defined.

Lemma CopyTexture_same_size_witness :
  let ta := mkTexture 2 2 [10; 11; 20; 21]%N in
  (CopyTexture gl_three 1 0 2 0 2 2 true 0).1 = true
  ∧ gl_three !! 1%N = Some ta ∧ tex_ok ta
  ∧ ∃ d', (CopyTexture gl_three 1 0 2 0 2 2 true 0).2 !! 2%N = Some d'
        ∧ tex_width d' = 2%N ∧ tex_height d' = 2%N
        ∧ tex_pixels d' !! 0 = Some 20%N.
Proof.
  intros ta.
  assert ((CopyTexture gl_three 1 0 2 0 2 2 true 0).1 = true) as Hr
    by (vm_compute; reflexivity).
  assert (gl_three !! 1%N = Some ta) as H1 by (vm_compute; reflexivity).
  assert (tex_ok ta) as Hok by (vm_compute; reflexivity).
  split_and!; try assumption.
  destruct (CopyTexture_same_size gl_three 1 0 2 0 2 2 true 0)
    as (_ & _ & _ & Hcopy).
  destruct (Hcopy Hr ta H1 Hok) as (d' & Hd & Hw & Hh & _ & Hpix).
  exists d'. split_and!; try assumption.
  assert (0 < N.to_nat 2) as Hlt by (vm_compute; lia).
  exact (Hpix 0 0 Hlt Hlt).
Defined.

Lemma stride_correction_witness :
  1 * gl_bytes_per_pixel 0x1908 < 6
  ∧ 2 * 6 ≤ length padded_rows
  ∧ length (copy_from_pitch gl_bytes_per_pixel padded_rows 1 2 6 0x1908) = 8
  ∧ 4 = 1 * gl_bytes_per_pixel 0x1908
  ∧ length (take 8 padded_rows) = 2 * 4
  ∧ copy_from_pitch gl_bytes_per_pixel (take 8 padded_rows) 1 2 4 0x1908
    = take 8 padded_rows.
Proof.
  assert (1 * gl_bytes_per_pixel 0x1908 < 6) as Hpad by (vm_compute; lia).
  assert (2 * 6 ≤ length padded_rows) as Hlen by (vm_compute; lia).
  assert (4 = 1 * gl_bytes_per_pixel 0x1908) as Heq by (vm_compute; reflexivity).
  assert (length (take 8 padded_rows) = 2 * 4) as Hlen' by (vm_compute; reflexivity).
  refine (conj Hpad (conj Hlen (conj _ (conj Heq (conj Hlen' _))))).
  - exact (proj1 (proj2 (proj1
      (stride_correction gl_bytes_per_pixel padded_rows 1 2 6 0x1908) Hpad Hlen))).
  - exact (proj1 (proj2
      (stride_correction gl_bytes_per_pixel (take 8 padded_rows) 1 2 4 0x1908)
      Heq Hlen')).
Defined.

(** * Sequences of calls on the memoryshare block *)

Section MachineSequences.
Context {Obj World : Type} `{!SpoutSharedMemory Obj World}.
Implicit Types m : machine Obj World.

(** What one call of any of the four methods does to the machine: it is
    defined, [senderMem] stays null or live, no location leaves the heap,
    the trace only grows, and every object other than the one held is left
    as it was. *)
Lemma run_method_step m c :
  wf m →
  ∃ m' evs, run_method c m = Some (tt, m')
          ∧ wf m'
          ∧ dom (heap m) ⊆ dom (heap m')
          ∧ trace m' = trace m ++ evs
          ∧ (∀ l' o', heap m !! l' = Some o' → senderMem (ms m) ≠ Some l' →
               heap m' !! l' = Some o').
Proof.
  intros Hwf. destruct c as [sendername| | |]; simpl;
    destruct (senderMem (ms m)) as [l|] eqn:Hs;
    try (destruct (Hwf l Hs) as [o Ho]).
  - unfold mbind, M_bind. rewrite (OpenSenderMemory_held m sendername l o Hs Ho).
    eexists _, _. split; [done|]. simpl. split_and!; [| |done|].
    + intros l' Hl'. simpl in *. rewrite Hs in Hl'. simplify_eq.
      rewrite lookup_insert_eq. by eexists.
    + apply dom_insert_subseteq.
    + intros l' o' Hl' Hne. rewrite lookup_insert_ne; [done|congruence].
  - unfold mbind, M_bind. rewrite (OpenSenderMemory_null m sendername Hs).
    eexists _, _. split; [done|]. simpl. split_and!; [| |done|].
    + intros l' [= <-]. simpl. rewrite lookup_insert_eq. by eexists.
    + etrans; [|apply dom_insert_subseteq]. apply dom_insert_subseteq.
    + intros l' o' Hl' _.
      assert (fresh (dom (heap m)) ≠ l') as Hne.
      { intros <-. apply (is_fresh (dom (heap m))). by apply elem_of_dom_2 in Hl'. }
      by rewrite !lookup_insert_ne.
  - rewrite (CloseSenderMemory_held m l o Hs Ho).
    eexists _, _. split; [done|]. simpl. split_and!; [| |done|].
    + by apply wf_null.
    + apply dom_insert_subseteq.
    + intros l' o' Hl' Hne. rewrite lookup_insert_ne; [done|congruence].
  - rewrite (CloseSenderMemory_null m Hs).
    eexists _, []. split; [done|]. simpl. split_and!; [by apply wf_null|done| |done].
    by rewrite app_nil_r.
  - unfold mbind, M_bind. rewrite (LockSenderMemory_held m l o Hs Ho).
    eexists _, _. split; [done|]. simpl. split_and!; [| |done|].
    + intros l' Hl'. simpl in *. rewrite Hs in Hl'. simplify_eq.
      rewrite lookup_insert_eq. by eexists.
    + apply dom_insert_subseteq.
    + intros l' o' Hl' Hne. rewrite lookup_insert_ne; [done|congruence].
  - unfold mbind, M_bind. rewrite (LockSenderMemory_null m Hs).
    eexists m, []. split_and!; [done|done|done| |done]. by rewrite app_nil_r.
  - rewrite (UnlockSenderMemory_held m l o Hs Ho).
    eexists _, _. split; [done|]. simpl. split_and!; [| |done|].
    + intros l' Hl'. simpl in *. rewrite Hs in Hl'. simplify_eq.
      rewrite lookup_insert_eq. by eexists.
    + apply dom_insert_subseteq.
    + intros l' o' Hl' Hne. rewrite lookup_insert_ne; [done|congruence].
  - rewrite (UnlockSenderMemory_null m Hs).
    eexists m, []. split_and!; [done|done|done| |done]. by rewrite app_nil_r.
Qed.

Lemma run_methods_steps m cs :
  wf m →
  ∃ m' evs, run_methods cs m = Some (tt, m')
          ∧ wf m'
          ∧ dom (heap m) ⊆ dom (heap m')
          ∧ trace m' = trace m ++ evs.
Proof.
  revert m. induction cs as [|c cs IH]; intros m Hwf.
  - exists m, []. split_and!; [done|done|done|]. by rewrite app_nil_r.
  - destruct (run_method_step m c Hwf) as (m1 & evs1 & Hrun1 & Hwf1 & Hdom1 & Htr1 & _).
    destruct (IH m1 Hwf1) as (m2 & evs2 & Hrun2 & Hwf2 & Hdom2 & Htr2).
    exists m2, (evs1 ++ evs2). simpl. unfold mbind, M_bind. rewrite Hrun1.
    split_and!; [done|done|by etrans|].
    by rewrite Htr2, Htr1, app_assoc.
Qed.

Lemma run_methods_app m cs1 cs2 :
  run_methods (cs1 ++ cs2) m
  = match run_methods cs1 m with
    | Some (_, m1) => run_methods cs2 m1
    | None => None
    end.
Proof.
  revert m. induction cs1 as [|c cs1 IH]; intros m; [done|].
  simpl. unfold mbind, M_bind. destruct (run_method c m) as [[[] m1]|]; [|done].
  apply IH.
Qed.

(** X1.  Starting from a [senderMem] that is null or refers to a live
    object, every finite sequence of calls of the four methods, in any
    order, is defined: no call goes through a pointer to a missing object,
    and [senderMem] is null or live again at the end. *)
Theorem any_call_sequence_defined m cs :
  wf m → ∃ m', run_methods cs m = Some (tt, m') ∧ wf m'.
Proof.
  intros Hwf.
  destruct (run_methods_steps m cs Hwf) as (m' & evs & Hrun & Hwf' & _).
  by exists m'.
Qed.

(** X2.  None of the four methods deletes a [SpoutSharedMemory] object:
    after any sequence of calls every location that was allocated before
    is still allocated, and the calls made before are still the beginning
    of the trace. *)
Theorem objects_never_freed m cs m' :
  wf m → run_methods cs m = Some (tt, m') →
  dom (heap m) ⊆ dom (heap m') ∧ trace m `prefix_of` trace m'.
Proof.
  intros Hwf Hrun.
  destruct (run_methods_steps m cs Hwf) as (m1 & evs & Hrun1 & _ & Hdom & Htr).
  rewrite Hrun in Hrun1. simplify_eq. split; [done|]. by exists evs.
Qed.

Lemma open_close_cycle m sendername :
  senderMem (ms m) = None →
  ∃ m', run_methods [CallOpen sendername; CallClose] m = Some (tt, m')
      ∧ senderMem (ms m') = None
      ∧ (fresh (dom (heap m)) ∉ dom (heap m))
      ∧ dom (heap m') = {[fresh (dom (heap m))]} ∪ dom (heap m).
Proof.
  intros Hs.
  pose proof (OpenSenderMemory_null m sendername Hs) as Hopen. simpl in Hopen.
  set (l := fresh (dom (heap m))) in *.
  set (r := SM_Open (sendername +:+ "_map") SM_ctor (world m)) in *.
  set (m1 := Machine _ _ _ _) in Hopen.
  pose proof (CloseSenderMemory_held m1 l r.2.1 eq_refl (lookup_insert_eq _ _ _))
    as Hclose.
  set (m2 := Machine _ _ _ _) in Hclose.
  exists m2. split_and!; [|done|apply is_fresh|].
  - cbn [run_methods run_method]. unfold mbind, M_bind, mret, M_mret.
    rewrite Hopen. cbv beta iota. by rewrite Hclose.
  - simpl. rewrite !dom_insert_L. by rewrite !(assoc_L (∪)), !(idemp_L (∪)).
Qed.

(** X3.  [CloseSenderMemory] sets [senderMem] to null without deleting the
    object, and [OpenSenderMemory] constructs a new one whenever
    [senderMem] is null.  So [n] rounds of open and close, started with
    [senderMem] null, end with [senderMem] null and exactly [n] more
    objects on the heap than before. *)
Theorem open_close_cycles_leak m n sendername :
  senderMem (ms m) = None →
  ∃ m', run_methods (open_close_cycles n sendername) m = Some (tt, m')
      ∧ senderMem (ms m') = None
      ∧ size (dom (heap m')) = size (dom (heap m)) + n.
Proof.
  revert m. induction n as [|n IH]; intros m Hs.
  - exists m. split_and!; [done|done|]. lia.
  - destruct (open_close_cycle m sendername Hs) as (m1 & Hrun1 & Hs1 & Hfresh & Hdom1).
    destruct (IH m1 Hs1) as (m2 & Hrun2 & Hs2 & Hsize).
    exists m2. split_and!; [|done|].
    + change (open_close_cycles (S n) sendername)
        with ([CallOpen sendername; CallClose] ++ open_close_cycles n sendername).
      rewrite run_methods_app, Hrun1. exact Hrun2.
    + rewrite Hsize, Hdom1, size_union by (by apply disjoint_singleton_l).
      rewrite size_singleton. lia.
Qed.

(** X4.  A call of any of the four methods changes no object other than
    the one [senderMem] refers to: every other object of the heap is in
    the same state after the call. *)
Theorem methods_touch_only_held_object m c m' l' o' :
  wf m → run_method c m = Some (tt, m') →
  heap m !! l' = Some o' → senderMem (ms m) ≠ Some l' →
  heap m' !! l' = Some o'.
Proof.
  intros Hwf Hrun Hl' Hne.
  destruct (run_method_step m c Hwf) as (m1 & evs & Hrun1 & _ & _ & _ & Hframe).
  rewrite Hrun in Hrun1. simplify_eq. by apply Hframe.
Qed.

(** X5.  Closing and opening again does not reuse the object that was
    held.  [CloseSenderMemory] calls [Close] on it and forgets it;
    the following [OpenSenderMemory] constructs another object at a
    different location and calls [Open] on that one, while the closed
    object stays on the heap as [Close] left it.  [m_Width] and [m_Height]
    are 0 after the pair: opening does not set them. *)
Theorem reopen_allocates_fresh m sendername l o :
  senderMem (ms m) = Some l → heap m !! l = Some o →
  let c := SM_Close o (world m) in
  let r := SM_Open (sendername +:+ "_map") SM_ctor c.2.2 in
  ∃ m1 m2 l',
    CloseSenderMemory m = Some (tt, m1)
    ∧ OpenSenderMemory sendername m1 = Some (r.1, m2)
    ∧ senderMem (ms m2) = Some l' ∧ l' ≠ l
    ∧ heap m2 !! l = Some c.2.1
    ∧ heap m2 !! l' = Some r.2.1
    ∧ m_Width (ms m2) = 0%N ∧ m_Height (ms m2) = 0%N
    ∧ new_events m m2
      = EvClose l :: EvNew l' :: open_calls l' (sendername +:+ "_map") r.1.
Proof.
  intros Hs Ho c r.
  pose proof (CloseSenderMemory_held m l o Hs Ho) as Hclose.
  fold c in Hclose. set (m1 := Machine _ _ _ _) in Hclose.
  pose proof (OpenSenderMemory_null m1 sendername eq_refl) as Hopen.
  simpl in Hopen. fold r in Hopen. set (m2 := Machine _ _ _ _) in Hopen.
  set (l' := fresh (dom (<[l:=c.2.1]> (heap m)))) in *.
  assert (l' ≠ l) as Hne.
  { intros Heq. apply (is_fresh (dom (<[l:=c.2.1]> (heap m)))).
    fold l'. rewrite Heq, dom_insert_L. set_solver. }
  exists m1, m2, l'. split_and!; try done.
  - simpl. do 2 (rewrite lookup_insert_ne by done). apply lookup_insert_eq.
  - simpl. apply lookup_insert_eq.
  - apply new_events_app. simpl. by rewrite <- app_assoc.
Qed.

(** X6.  [OpenSenderMemory] leaves [senderMem] non-null whether [Open]
    succeeded or failed.  The following [LockSenderMemory] therefore never
    takes the early return of line 268: it calls [Lock] on the object and
    returns what [Lock] returns, also after an open that returned
    [false]. *)
Theorem lock_after_open_reaches_Lock m sendername :
  wf m →
  ∃ ok m1 l o m2,
    OpenSenderMemory sendername m = Some (ok, m1)
    ∧ senderMem (ms m1) = Some l ∧ heap m1 !! l = Some o
    ∧ LockSenderMemory m1 = Some ((SM_Lock o (world m1)).1, m2)
    ∧ new_events m1 m2 = [EvLock l].
Proof.
  intros Hwf.
  destruct (OpenSenderMemory_run m sendername Hwf)
    as (l & m1 & Hrun & Hs & Hh & _).
  eexists _, m1, l, _, _. split_and!; [exact Hrun|exact Hs|exact Hh| |].
  - by apply LockSenderMemory_held.
  - by apply new_events_app.
Qed.

(** X7.  After [CloseSenderMemory] the block is inert: [LockSenderMemory]
    returns [nullptr] and [UnlockSenderMemory] returns, and neither makes a
    call or changes anything, until the next [OpenSenderMemory]. *)
Theorem closed_block_is_inert m :
  wf m →
  ∃ m1, CloseSenderMemory m = Some (tt, m1)
      ∧ LockSenderMemory m1 = Some (None, m1)
      ∧ UnlockSenderMemory m1 = Some (tt, m1)
      ∧ run_methods [CallLock; CallUnlock; CallClose] m1 = Some (tt, m1).
Proof.
  intros Hwf.
  assert (∃ m1, CloseSenderMemory m = Some (tt, m1)
              ∧ ms m1 = MemoryShare None 0 0) as (m1 & Hrun & Hms).
  { destruct (senderMem (ms m)) as [l|] eqn:Hs.
    - destruct (Hwf l Hs) as [o Ho].
      eexists. split; [by apply CloseSenderMemory_held|done].
    - eexists. split; [by apply CloseSenderMemory_null|done]. }
  assert (senderMem (ms m1) = None) as Hs1 by by rewrite Hms.
  exists m1. split_and!; [done| | |].
  - by apply LockSenderMemory_null.
  - by apply UnlockSenderMemory_null.
  - cbn [run_methods run_method]. unfold mbind, M_bind, mret, M_mret.
    rewrite (LockSenderMemory_null m1 Hs1), (UnlockSenderMemory_null m1 Hs1).
    by rewrite (CloseSenderMemory_closed m1 Hms).
Qed.

(** X8.  [OpenSenderMemory] writes its warning to the log exactly when it
    returns [false]: once after a failed [Open], never after a successful
    one. *)
Theorem warning_iff_open_failed m sendername :
  wf m →
  ∃ ok m', OpenSenderMemory sendername m = Some (ok, m')
         ∧ filter (λ e, is_log e = true) (new_events m m')
           = if ok then []
             else [EvLogWarning
                     "spoutGL.memoryshare::OpenSenderMemory - open shared memory failed"].
Proof.
  intros Hwf.
  destruct (OpenSenderMemory_run m sendername Hwf)
    as (l & m' & Hrun & _ & _ & _ & _ & _ & Hcases).
  eexists _, m'. split; [exact Hrun|]. clear Hrun.
  destruct Hcases as [(_ & -> & _)|(_ & _ & -> & _)];
    unfold open_calls;
    destruct (SM_Open (sendername +:+ "_map") (object_to_open m) (world m)).1;
    reflexivity.
Qed.

Lemma append_inj_l (s1 s2 t : string) : s1 +:+ t = s2 +:+ t → s1 = s2.
Proof.
  revert s2. induction s1 as [|c1 s1 IH]; intros [|c2 s2] Heq; simpl in *.
  - done.
  - apply (f_equal String.length) in Heq.
    rewrite !length_append in Heq. simpl in Heq. lia.
  - apply (f_equal String.length) in Heq.
    rewrite !length_append in Heq. simpl in Heq. lia.
  - injection Heq as -> Heq. f_equal. by apply IH.
Qed.

(** X9.  The map name is derived from the sender name without loss:
    opening two different sender names never asks [Open] for the same
    map. *)
Theorem distinct_senders_distinct_maps m1 m2 (name1 name2 : string) :
  wf m1 → wf m2 → name1 ≠ name2 →
  ∃ ok1 m1' ok2 m2',
    OpenSenderMemory name1 m1 = Some (ok1, m1')
    ∧ OpenSenderMemory name2 m2 = Some (ok2, m2')
    ∧ ∀ x, x ∈ opened_names (new_events m1 m1') →
           x ∉ opened_names (new_events m2 m2').
Proof.
  intros Hwf1 Hwf2 Hne.
  assert (∀ m name, wf m →
    ∃ ok m', OpenSenderMemory name m = Some (ok, m')
           ∧ opened_names (new_events m m') = [name +:+ "_map"]) as Hnames.
  { intros m name Hwf.
    destruct (OpenSenderMemory_run m name Hwf)
      as (l & m' & Hrun & _ & _ & _ & _ & _ & Hcases).
    eexists _, m'. split; [exact Hrun|].
    destruct Hcases as [(_ & -> & _)|(_ & _ & -> & _)].
    - apply opened_names_open_calls.
    - change (opened_names (EvNew l :: ?t)) with (opened_names t).
      apply opened_names_open_calls. }
  destruct (Hnames m1 name1 Hwf1) as (ok1 & m1' & Hrun1 & Hn1).
  destruct (Hnames m2 name2 Hwf2) as (ok2 & m2' & Hrun2 & Hn2).
  exists ok1, m1', ok2, m2'. split_and!; [done|done|].
  intros x. rewrite Hn1, Hn2.
  intros ->%list_elem_of_singleton Heq%list_elem_of_singleton.
  by apply append_inj_l in Heq.
Qed.

(** X10.  [UnlockSenderMemory] does not look at the outcome of the lock.
    With [senderMem] non-null, a [LockSenderMemory] followed by an
    [UnlockSenderMemory] makes one [Lock] call and one [Unlock] call on the
    same object whatever [Lock] returned, so also after a lock that gave
    [nullptr]; the fields of the struct are the same as before. *)
Theorem unlock_ignores_lock_result m l :
  wf m → senderMem (ms m) = Some l →
  ∃ r m1 m2, LockSenderMemory m = Some (r, m1)
           ∧ UnlockSenderMemory m1 = Some (tt, m2)
           ∧ new_events m m2 = [EvLock l; EvUnlock l]
           ∧ ms m2 = ms m.
Proof.
  intros Hwf Hs. destruct (Hwf l Hs) as [o Ho].
  pose proof (LockSenderMemory_held m l o Hs Ho) as Hlock. simpl in Hlock.
  set (m1 := Machine _ _ _ _) in Hlock.
  pose proof (UnlockSenderMemory_held m1 l _ Hs (lookup_insert_eq _ _ _))
    as Hunlock. simpl in Hunlock.
  eexists _, m1, _. split_and!; [exact Hlock|exact Hunlock| |done].
  apply new_events_app. simpl. by rewrite <- app_assoc.
Qed.

Lemma filter_open_call_open_calls l namestring ok :
  filter (λ e, is_open_call e = true) (open_calls l namestring ok)
  = [EvOpen l namestring].
Proof. by destruct ok. Qed.

Lemma opens_on_held_object m l (names : list string) :
  wf m → senderMem (ms m) = Some l →
  ∃ m' evs, run_methods (CallOpen <$> names) m = Some (tt, m')
          ∧ wf m'
          ∧ senderMem (ms m') = Some l
          ∧ dom (heap m') = dom (heap m)
          ∧ trace m' = trace m ++ evs
          ∧ filter (λ e, is_new e = true) evs = []
          ∧ opened_names evs = (λ n, n +:+ "_map") <$> names
          ∧ filter (λ e, is_open_call e = true) evs
            = (λ n, EvOpen l (n +:+ "_map")) <$> names.
Proof.
  revert m. induction names as [|name names IH]; intros m Hwf Hs.
  - exists m, []. split_and!; try done. by rewrite app_nil_r.
  - destruct (Hwf l Hs) as [o Ho].
    pose proof (OpenSenderMemory_held m name l o Hs Ho) as Hopen.
    simpl in Hopen. set (m1 := Machine _ _ _ _) in Hopen.
    assert (wf m1) as Hwf1.
    { intros l1 Hl1. simpl in Hl1. rewrite Hs in Hl1. simplify_eq.
      simpl. rewrite lookup_insert_eq. by eexists. }
    destruct (IH m1 Hwf1 Hs)
      as (m' & evs & Hrun & Hwf' & Hs' & Hdom & Htr & Hnew & Hnames & Hopens).
    eexists m', (_ ++ evs). split_and!; [|done|done| | | | |].
    + cbn [fmap list_fmap run_methods run_method].
      unfold mbind, M_bind, mret, M_mret. rewrite Hopen. exact Hrun.
    + rewrite Hdom. simpl. by apply dom_insert_lookup_L.
    + rewrite Htr. simpl. by rewrite <- app_assoc.
    + rewrite filter_app, Hnew, app_nil_r.
      unfold open_calls. by destruct (SM_Open _ _ _).1.
    + unfold opened_names in *. rewrite omap_app. fold opened_names.
      rewrite opened_names_open_calls. unfold opened_names. by rewrite Hnames.
    + by rewrite filter_app, filter_open_call_open_calls, Hopens.
Qed.

(** X11.  However many times [OpenSenderMemory] is called in a row, and
    with whatever names, only the first call made with [senderMem] null
    constructs an object: the whole run allocates exactly one location,
    every [Open] call of the run is made on the object at that location,
    and the names passed to [Open] are the sender names with ["_map"]
    appended, in the order of the calls. *)
Theorem repeated_opens_allocate_once m (name : string) (names : list string) :
  senderMem (ms m) = None →
  ∃ m' l,
    run_methods (CallOpen <$> (name :: names)) m = Some (tt, m')
    ∧ senderMem (ms m') = Some l
    ∧ dom (heap m') = {[l]} ∪ dom (heap m) ∧ (l ∉ dom (heap m))
    ∧ filter (λ e, is_new e = true) (new_events m m') = [EvNew l]
    ∧ opened_names (new_events m m')
      = (λ n, n +:+ "_map") <$> (name :: names)
    ∧ filter (λ e, is_open_call e = true) (new_events m m')
      = (λ n, EvOpen l (n +:+ "_map")) <$> (name :: names).
Proof.
  intros Hs.
  pose proof (OpenSenderMemory_null m name Hs) as Hopen. simpl in Hopen.
  set (l := fresh (dom (heap m))) in *.
  set (m1 := Machine _ _ _ _) in Hopen.
  assert (wf m1) as Hwf1.
  { intros l1 [= <-]. simpl. rewrite lookup_insert_eq. by eexists. }
  destruct (opens_on_held_object m1 l names Hwf1 eq_refl)
    as (m' & evs & Hrun & _ & Hs' & Hdom & Htr & Hnew & Hnames & Hopens).
  assert (new_events m m'
          = EvNew l :: open_calls l (name +:+ "_map")
                         (SM_Open (name +:+ "_map") SM_ctor (world m)).1 ++ evs)
    as Hev.
  { apply new_events_app. rewrite Htr. simpl. by rewrite <- app_assoc. }
  exists m', l. split_and!; [|done| |apply is_fresh| | |].
  - cbn [fmap list_fmap run_methods run_method].
    unfold mbind, M_bind, mret, M_mret. rewrite Hopen. exact Hrun.
  - rewrite Hdom. simpl. rewrite !dom_insert_L.
    by rewrite (assoc_L (∪)), (idemp_L (∪)).
  - rewrite Hev. rewrite filter_cons_True by done. f_equal.
    rewrite filter_app, Hnew, app_nil_r.
    unfold open_calls. by destruct (SM_Open _ _ _).1.
  - rewrite Hev.
    change (opened_names (EvNew l :: ?t)) with (opened_names t).
    unfold opened_names in *. rewrite omap_app. fold opened_names.
    rewrite opened_names_open_calls. unfold opened_names. by rewrite Hnames.
  - rewrite Hev. rewrite filter_cons_False by (simpl; discriminate).
    by rewrite filter_app, filter_open_call_open_calls, Hopens.
Qed.

End MachineSequences.

(** ** Sequences of calls on the stand-in *)

Lemma any_call_sequence_defined_witness :
  let m0 := Double.never_opened Double.os_cam0 in
  let cs := [CallLock; CallOpen "cam1"; CallLock; CallUnlock; CallOpen "cam0";
             CallLock; CallClose; CallClose; CallUnlock] in
  wf m0 ∧ ∃ m', run_methods cs m0 = Some (tt, m') ∧ wf m'.
Proof.
  intros m0 cs.
  assert (wf m0) as Hwf by (intros l; discriminate).
  split; [exact Hwf|]. exact (any_call_sequence_defined m0 cs Hwf).
Defined.

Lemma objects_never_freed_witness :
  let m0 := Double.holding (Double.Obj (Some "cam0_map") false) 640 480
                           Double.os_cam0 in
  let cs := [CallClose; CallOpen "cam0"; CallClose] in
  wf m0
  ∧ ∃ m', run_methods cs m0 = Some (tt, m')
        ∧ dom (heap m0) ⊆ dom (heap m') ∧ trace m0 `prefix_of` trace m'.
Proof.
  intros m0 cs.
  assert (wf m0) as Hwf by (intros l [= <-]; by eexists).
  split; [exact Hwf|].
  destruct (run_methods cs m0) as [[[] m']|] eqn:Hrun;
    [|vm_compute in Hrun; discriminate].
  exists m'. split; [reflexivity|].
  exact (objects_never_freed m0 cs m' Hwf Hrun).
Defined.

Lemma open_close_cycles_leak_witness :
  let m0 := Double.never_opened Double.os_cam0 in
  senderMem (ms m0) = None
  ∧ ∃ m', run_methods (open_close_cycles 3 "cam0") m0 = Some (tt, m')
        ∧ senderMem (ms m') = None
        ∧ size (dom (heap m')) = size (dom (heap m0)) + 3.
Proof.
  intros m0. split; [reflexivity|].
  exact (open_close_cycles_leak m0 3 "cam0" eq_refl).
Defined.

Lemma methods_touch_only_held_object_witness :
  let o1 := Double.Obj (Some "cam0_map") true in
  let o2 := Double.Obj (Some "cam1_map") true in
  let m0 := Machine (MemoryShare (Some 1%positive) 640 480)
                    {[ 1%positive := o1; 2%positive := o2 ]}
                    Double.os_cam0 [] in
  wf m0 ∧ heap m0 !! 2%positive = Some o2
  ∧ senderMem (ms m0) ≠ Some 2%positive
  ∧ ∃ m', run_method CallClose m0 = Some (tt, m')
        ∧ heap m' !! 2%positive = Some o2.
Proof.
  intros o1 o2 m0.
  assert (wf m0) as Hwf by (intros l [= <-]; by eexists).
  assert (heap m0 !! 2%positive = Some o2) as H2 by (vm_compute; reflexivity).
  assert (senderMem (ms m0) ≠ Some 2%positive) as Hne by (simpl; discriminate).
  split_and!; [exact Hwf|exact H2|exact Hne|].
  destruct (run_method CallClose m0) as [[[] m']|] eqn:Hrun;
    [|vm_compute in Hrun; discriminate].
  exists m'. split; [reflexivity|].
  exact (methods_touch_only_held_object m0 CallClose m' 2%positive o2
           Hwf Hrun H2 Hne).
Defined.

Lemma reopen_allocates_fresh_witness :
  let o := Double.Obj (Some "cam0_map") true in
  let m0 := Double.holding o 640 480 Double.os_cam0 in
  senderMem (ms m0) = Some 1%positive ∧ heap m0 !! 1%positive = Some o
  ∧ ∃ m1 m2 l',
      CloseSenderMemory m0 = Some (tt, m1)
      ∧ OpenSenderMemory "cam0" m1 = Some (true, m2)
      ∧ senderMem (ms m2) = Some l' ∧ l' ≠ 1%positive
      ∧ m_Width (ms m2) = 0%N ∧ m_Height (ms m2) = 0%N.
Proof.
  intros o m0.
  assert (senderMem (ms m0) = Some 1%positive) as Hs by reflexivity.
  assert (heap m0 !! 1%positive = Some o) as Ho by (vm_compute; reflexivity).
  split_and!; [exact Hs|exact Ho|].
  destruct (reopen_allocates_fresh m0 "cam0" 1%positive o Hs Ho)
    as (m1 & m2 & l' & Hc & Hopen & Hs2 & Hne & _ & _ & Hw & Hh & _).
  exists m1, m2, l'. split_and!; assumption.
Defined.

Lemma lock_after_open_reaches_Lock_witness :
  let m0 := Double.never_opened Double.os_cam0 in
  wf m0
  ∧ ∃ m1 l m2,
      OpenSenderMemory "cam1" m0 = Some (false, m1)
      ∧ senderMem (ms m1) = Some l
      ∧ new_events m1 m2 = [EvLock l].
Proof.
  intros m0.
  assert (wf m0) as Hwf by (intros l; discriminate).
  split; [exact Hwf|].
  destruct (lock_after_open_reaches_Lock m0 "cam1" Hwf)
    as (ok & m1 & l & o & m2 & Hopen & Hs & _ & _ & Hev).
  assert (ok = false) as ->.
  { assert (fst <$> OpenSenderMemory "cam1" m0 = Some false) as Hc
      by (vm_compute; reflexivity).
    rewrite Hopen in Hc. by injection Hc. }
  exists m1, l, m2. split_and!; assumption.
Defined.

Lemma closed_block_is_inert_witness :
  let m0 := Double.holding (Double.Obj (Some "cam0_map") true) 640 480
                           Double.os_cam0 in
  wf m0
  ∧ ∃ m1, CloseSenderMemory m0 = Some (tt, m1)
        ∧ LockSenderMemory m1 = Some (None, m1)
        ∧ UnlockSenderMemory m1 = Some (tt, m1).
Proof.
  intros m0.
  assert (wf m0) as Hwf by (intros l [= <-]; by eexists).
  split; [exact Hwf|].
  destruct (closed_block_is_inert m0 Hwf) as (m1 & Hc & Hl & Hu & _).
  exists m1. split_and!; assumption.
Defined.

Lemma warning_iff_open_failed_witness :
  let m0 := Double.never_opened Double.os_cam0 in
  wf m0
  ∧ ∃ ok m', OpenSenderMemory "cam1" m0 = Some (ok, m')
           ∧ filter (λ e, is_log e = true) (new_events m0 m')
             = if ok then []
               else [EvLogWarning
                       "spoutGL.memoryshare::OpenSenderMemory - open shared memory failed"].
Proof.
  intros m0.
  assert (wf m0) as Hwf by (intros l; discriminate).
  split; [exact Hwf|]. exact (warning_iff_open_failed m0 "cam1" Hwf).
Defined.

Lemma distinct_senders_distinct_maps_witness :
  let m1 := Double.never_opened Double.os_cam0 in
  let m2 := Double.holding (Double.Obj None false) 0 0 Double.os_cam0 in
  wf m1 ∧ wf m2 ∧ "cam0" ≠ "cam1"
  ∧ ∃ ok1 m1' ok2 m2',
      OpenSenderMemory "cam0" m1 = Some (ok1, m1')
      ∧ OpenSenderMemory "cam1" m2 = Some (ok2, m2')
      ∧ ∀ x, x ∈ opened_names (new_events m1 m1') →
             x ∉ opened_names (new_events m2 m2').
Proof.
  intros m1 m2.
  assert (wf m1) as Hwf1 by (intros l; discriminate).
  assert (wf m2) as Hwf2 by (intros l [= <-]; by eexists).
  assert ("cam0" ≠ "cam1") as Hne by discriminate.
  split_and!; [exact Hwf1|exact Hwf2|exact Hne|].
  exact (distinct_senders_distinct_maps m1 m2 "cam0" "cam1" Hwf1 Hwf2 Hne).
Defined.

Lemma unlock_ignores_lock_result_witness :
  let m0 := Double.holding (Double.Obj (Some "cam0_map") false) 0 0
                           Double.os_cam0_busy in
  wf m0 ∧ senderMem (ms m0) = Some 1%positive
  ∧ ∃ m1 m2, LockSenderMemory m0 = Some (None, m1)
           ∧ UnlockSenderMemory m1 = Some (tt, m2)
           ∧ new_events m0 m2 = [EvLock 1%positive; EvUnlock 1%positive].
Proof.
  intros m0.
  assert (wf m0) as Hwf by (intros l [= <-]; by eexists).
  assert (senderMem (ms m0) = Some 1%positive) as Hs by reflexivity.
  split_and!; [exact Hwf|exact Hs|].
  destruct (unlock_ignores_lock_result m0 1%positive Hwf Hs)
    as (r & m1 & m2 & Hl & Hu & Hev & _).
  assert (r = None) as ->.
  { assert (fst <$> LockSenderMemory m0 = Some None) as Hc
      by (vm_compute; reflexivity).
    rewrite Hl in Hc. by injection Hc. }
  exists m1, m2. split_and!; assumption.
Defined.

Lemma repeated_opens_allocate_once_witness :
  let m0 := Double.never_opened Double.os_cam0 in
  senderMem (ms m0) = None
  ∧ ∃ m' l,
      run_methods (CallOpen <$> ["cam0"; "cam1"; "cam0"]) m0 = Some (tt, m')
      ∧ senderMem (ms m') = Some l
      ∧ filter (λ e, is_new e = true) (new_events m0 m') = [EvNew l]
      ∧ opened_names (new_events m0 m') = ["cam0_map"; "cam1_map"; "cam0_map"]
      ∧ filter (λ e, is_open_call e = true) (new_events m0 m')
        = [EvOpen l "cam0_map"; EvOpen l "cam1_map"; EvOpen l "cam0_map"].
Proof.
  intros m0. split; [reflexivity|].
  destruct (repeated_opens_allocate_once m0 "cam0" ["cam1"; "cam0"] eq_refl)
    as (m' & l & Hrun & Hs & _ & _ & Hnew & Hnames & Hopens).
  exists m', l. split_and!; assumption.
Defined.
